(** * Riftory: gesture layer, looped feed and favourites

    A shallow embedding of the stateful parts of the Riftory client:

    - [HomeScreen]: the triple-overscroll detector ([handleScrollEndDrag]);
    - [HomeFavorites]: the awaited favourite toggle of the same screen;
    - [ReelItem]: single/double tap disambiguation ([handleTap]) together
      with the timer table of the JavaScript event loop it relies on;
    - [ForYouScreen]: the looped feed built by [loadProducts];
    - [EnhancedReelItem]: [getOriginalProductId] (a regular expression
      run by a backtracking matcher), [toggleFavoriteAPI] and the
      optimistic [handleFavoritePress];
    - [FavoritesContext]: the session favourites list of
      [FavoritesProvider].

    Conventions.  [Date.now()] and timer deadlines are integers ([Z],
    milliseconds).  Scroll metrics and velocities are JavaScript numbers;
    they are modelled as exact rationals ([Q]), which leaves rounding of
    the two additions in the bottom test out of the model.  Strings are
    sequences of UTF-16 code units ([list N]).  [React] refs are fields of
    a record threaded through the handlers; [async] functions are trees of
    effects whose [await] nodes are answered by the network. *)

From Stdlib Require Import ZArith QArith List Lia Bool Ascii String.
From Stdlib Require Import Decimal DecimalFacts DecimalNat Permutation.
From stdpp Require Import gmap list.
Import ListNotations.

Local Open Scope Z_scope.

(* ================================================================== *)
(** * Part I: the model                                                 *)
(* ================================================================== *)

(** ** JavaScript strings *)

Definition jsstring := list N.

(** Code units of an ASCII literal, to write identifiers readably. *)
Fixpoint lit (s : string) : jsstring :=
  match s with
  | EmptyString => []
  | String c r => N_of_ascii c :: lit r
  end.

(** ** HomeScreen: triple overscroll detector *)

Module HomeScreen.

(** The fields of [event.nativeEvent] read by the handler. *)
Record NativeScrollEvent := {
  layoutMeasurement_height : Q;
  contentOffset_y : Q;
  contentSize_height : Q;
  velocity : option (Q * Q)      (* [{x, y}], possibly undefined *)
}.

Inductive Effect :=
| ImpactMedium                    (* Haptics.impactAsync(Medium) *)
| NotificationWarning             (* Haptics.notificationAsync(Warning) *)
| Navigate (route : string).      (* navigation.navigate(route) *)

(** [overscrollCountRef] and [lastOverscrollRef]. *)
Record Refs := {
  overscrollCountRef : Z;
  lastOverscrollRef : Z
}.

Definition mount : Refs :=
  {| overscrollCountRef := 0; lastOverscrollRef := 0 |}.

Definition OVERSCROLL_WINDOW : Z := 3000.
Definition paddingToBottom : Q := 50%Q.

Definition Qlt_bool (x y : Q) : bool := negb (Qle_bool y x).

(** [layoutMeasurement.height + contentOffset.y >=
     contentSize.height - paddingToBottom] *)
Definition atBottom (e : NativeScrollEvent) : bool :=
  Qle_bool (contentSize_height e - paddingToBottom)%Q
           (layoutMeasurement_height e + contentOffset_y e)%Q.

(** [atBottom && velocity && velocity.y < -0.5] *)
Definition qualifies (e : NativeScrollEvent) : bool :=
  atBottom e &&
  match velocity e with
  | Some (_, vy) => Qlt_bool vy (- (1 # 2))%Q
  | None => false
  end.

(** [handleScrollEndDrag], with [now] the value of [Date.now()]. *)
Definition handleScrollEndDrag (now : Z) (e : NativeScrollEvent) (r : Refs)
  : Refs * list Effect :=
  if qualifies e then
    let count0 :=
      if OVERSCROLL_WINDOW <? now - lastOverscrollRef r
      then 0 else overscrollCountRef r in
    let count1 := count0 + 1 in
    if 3 <=? count1 then
      ({| overscrollCountRef := 0; lastOverscrollRef := now |},
       [ImpactMedium; NotificationWarning; Navigate "UpsideDown"])
    else
      ({| overscrollCountRef := count1; lastOverscrollRef := now |},
       [ImpactMedium])
  else (r, []).

(** A stream of scroll-end events, each with the clock reading at which
    it is handled; the result lists the effects of every event. *)
Fixpoint scrollEnds (evs : list (Z * NativeScrollEvent)) (r : Refs)
  : Refs * list (list Effect) :=
  match evs with
  | [] => (r, [])
  | (now, e) :: rest =>
      let '(r1, out) := handleScrollEndDrag now e r in
      let '(r2, outs) := scrollEnds rest r1 in
      (r2, out :: outs)
  end.

Definition isUnlock (x : Effect) : bool :=
  match x with Navigate _ => true | _ => false end.

(** Number of navigations in the effects of a run. *)
Definition unlocks (outs : list (list Effect)) : nat :=
  length (List.filter isUnlock (concat outs)).

(** A scroll end at the very bottom with downward velocity. *)
Definition pullAtBottom : NativeScrollEvent :=
  {| layoutMeasurement_height := 800%Q;
     contentOffset_y := 1200%Q;
     contentSize_height := 2000%Q;
     velocity := Some (0%Q, (- (3 # 2))%Q) |}.

End HomeScreen.

(** ** ReelItem: single tap versus double tap *)

Module ReelItem.

Definition DOUBLE_TAP_DELAY : Z := 300.

(** What the component does to the outside world: the deferred
    callback calls [onSingleTap(product)], the double-tap branch calls
    [toggleFavorite(product)].  A single tap records the deadline its
    timer was set for and the time at which the callback ran; a double
    tap records the time of the tap that ran it. *)
Inductive Fired :=
| SingleTap (due now : Z)
| DoubleTap (now : Z).

(** The two refs of the component, and the part of the event loop the
    handler talks to: the table of pending timers (identifier to
    deadline; every timer of this component carries the same callback),
    the next identifier [setTimeout] returns (identifiers are positive,
    hence truthy), and the clock, which [Date.now()] reads. *)
Record State := {
  lastTapRef : Z;
  tapTimeoutRef : option nat;
  timers : gmap nat Z;
  nextTimerId : nat;
  clock : Z
}.

Definition mount : State :=
  {| lastTapRef := 0; tapTimeoutRef := None; timers := ∅;
     nextTimerId := 1; clock := 0 |}.

Definition withLastTapRef (v : Z) (s : State) : State :=
  {| lastTapRef := v; tapTimeoutRef := tapTimeoutRef s; timers := timers s;
     nextTimerId := nextTimerId s; clock := clock s |}.

Definition withTapTimeoutRef (v : option nat) (s : State) : State :=
  {| lastTapRef := lastTapRef s; tapTimeoutRef := v; timers := timers s;
     nextTimerId := nextTimerId s; clock := clock s |}.

(** The clock moves to the time of the event being served. *)
Definition advance (now : Z) (s : State) : State :=
  {| lastTapRef := lastTapRef s; tapTimeoutRef := tapTimeoutRef s;
     timers := timers s; nextTimerId := nextTimerId s; clock := now |}.

(** [setTimeout(callback, delay)]: a new timer due [delay] from now;
    its identifier is returned. *)
Definition setTimeout (delay : Z) (s : State) : nat * State :=
  (nextTimerId s,
   {| lastTapRef := lastTapRef s; tapTimeoutRef := tapTimeoutRef s;
      timers := <[nextTimerId s := clock s + delay]> (timers s);
      nextTimerId := S (nextTimerId s); clock := clock s |}).

(** [clearTimeout(id)] *)
Definition clearTimeout (id : nat) (s : State) : State :=
  {| lastTapRef := lastTapRef s; tapTimeoutRef := tapTimeoutRef s;
     timers := delete id (timers s);
     nextTimerId := nextTimerId s; clock := clock s |}.

(** [handleTap]. *)
Definition handleTap (s : State) : State * list Fired :=
  let now := clock s in                        (* Date.now() *)
  let timeSinceLastTap := now - lastTapRef s in
  if timeSinceLastTap <? DOUBLE_TAP_DELAY then
    (* double tap: clear the pending single tap timeout *)
    let s1 :=
      match tapTimeoutRef s with
      | Some id => withTapTimeoutRef None (clearTimeout id s)
      | None => s
      end in
    (* toggleFavorite(product), then reset the last tap *)
    (withLastTapRef 0 s1, [DoubleTap now])
  else
    (* potential single tap: record it and start the timer *)
    let s1 := withLastTapRef now s in
    let '(id, s2) := setTimeout DOUBLE_TAP_DELAY s1 in
    (withTapTimeoutRef (Some id) s2, []).

(** The callback given to [setTimeout], for the timer that was due at
    [due]: [onSingleTap(product); tapTimeoutRef.current = null]. *)
Definition timeoutCallback (due : Z) (s : State) : State * list Fired :=
  (withTapTimeoutRef None s, [SingleTap due (clock s)]).

(** Events of the loop.  A timer may run at its deadline or later, and
    a tap and a timer falling in the same millisecond may be served in
    either order; the clock never goes back.  A timer that runs leaves
    the table before its callback is called. *)
Inductive Event :=
| Tap (now : Z)
| TimerFires (id : nat) (now : Z).

Definition step (s : State) (ev : Event) : option (State * list Fired) :=
  match ev with
  | Tap now =>
      if clock s <=? now then Some (handleTap (advance now s)) else None
  | TimerFires id now =>
      match timers s !! id with
      | Some due =>
          if (due <=? now) && (clock s <=? now)
          then Some (timeoutCallback due (clearTimeout id (advance now s)))
          else None
      | None => None
      end
  end.

Fixpoint run (evs : list Event) (s : State) : option (State * list Fired) :=
  match evs with
  | [] => Some (s, [])
  | ev :: rest =>
      match step s ev with
      | Some (s1, out) =>
          match run rest s1 with
          | Some (s2, log) => Some (s2, out ++ log)
          | None => None
          end
      | None => None
      end
  end.

Fixpoint tapTimes (evs : list Event) : list Z :=
  match evs with
  | [] => []
  | Tap now :: rest => now :: tapTimes rest
  | TimerFires _ _ :: rest => tapTimes rest
  end.

(** Every tap comes at least [DOUBLE_TAP_DELAY] after the one before
    ([last] is the time of the tap before the first). *)
Fixpoint spaced (last : Z) (ts : list Z) : Prop :=
  match ts with
  | [] => True
  | t :: rest => DOUBLE_TAP_DELAY <= t - last /\ spaced t rest
  end.

Definition isDoubleTap (f : Fired) : bool :=
  match f with DoubleTap _ => true | SingleTap _ _ => false end.

(** Deadlines of the single-tap callbacks that ran. *)
Fixpoint singleTapDues (log : list Fired) : list Z :=
  match log with
  | [] => []
  | SingleTap due _ :: rest => due :: singleTapDues rest
  | DoubleTap _ :: rest => singleTapDues rest
  end.

(** Deadlines of the timers still pending. *)
Definition pendingDues (s : State) : list Z := (map_to_list (timers s)).*2.

(** A single-tap callback that ran at its deadline or later. *)
Definition ranOnTime (f : Fired) : Prop :=
  match f with
  | SingleTap due now => due <= now
  | DoubleTap _ => False
  end.

(** [setTimeout] hands out identifiers in increasing order, so the
    next identifier is never in the table. *)
Definition fresh_ids (s : State) : Prop :=
  forall i, (nextTimerId s <= i)%nat -> timers s !! i = None.

(** The ref tracks the timers: either nothing is pending and the ref is
    empty, or the one pending timer is the one the ref points to, due
    [DOUBLE_TAP_DELAY] after the recorded tap. *)
Definition tracked (s : State) : Prop :=
  (tapTimeoutRef s = None /\ timers s = ∅)
  \/ (exists id, tapTimeoutRef s = Some id /\
                 timers s = {[ id := lastTapRef s + DOUBLE_TAP_DELAY ]}).

(** A run in which every timer is served before any tap that comes at
    its deadline or later. *)
Fixpoint prompt (evs : list Event) (s : State) : Prop :=
  match evs with
  | [] => True
  | ev :: rest =>
      match ev with
      | Tap now => map_Forall (fun _ due => now < due) (timers s)
      | TimerFires _ _ => True
      end /\
      match step s ev with
      | Some (s1, _) => prompt rest s1
      | None => True
      end
  end.

End ReelItem.

(** ** Products *)

Record Product := {
  id : jsstring;
  title : jsstring;
  price : Z
}.

(** ** ForYouScreen: the looped feed *)

Module ForYouScreen.

Definition LOOP_MULTIPLIER : nat := 10.

(** Decimal digits of a loop counter or array index, as a template
    literal prints a non-negative integer. *)
Fixpoint digitsOf (u : Decimal.uint) : jsstring :=
  match u with
  | Decimal.Nil => []
  | Decimal.D0 r => 48%N :: digitsOf r
  | Decimal.D1 r => 49%N :: digitsOf r
  | Decimal.D2 r => 50%N :: digitsOf r
  | Decimal.D3 r => 51%N :: digitsOf r
  | Decimal.D4 r => 52%N :: digitsOf r
  | Decimal.D5 r => 53%N :: digitsOf r
  | Decimal.D6 r => 54%N :: digitsOf r
  | Decimal.D7 r => 55%N :: digitsOf r
  | Decimal.D8 r => 56%N :: digitsOf r
  | Decimal.D9 r => 57%N :: digitsOf r
  end.

Definition numberToString (n : nat) : jsstring := digitsOf (Nat.to_uint n).

(** [`${product.id}_loop${i}_${idx}`] *)
Definition loopId (productId : jsstring) (i idx : nat) : jsstring :=
  productId ++ lit "_loop" ++ numberToString i ++ lit "_" ++ numberToString idx.

(** [{ ...product, id: `${product.id}_loop${i}_${idx}` }] *)
Definition loopCopy (i idx : nat) (product : Product) : Product :=
  {| id := loopId (id product) i idx;
     title := title product;
     price := price product |}.

(** The nested loop of [loadProducts]: for [i] from 0 below the
    multiplier, every shuffled product with its index is pushed.  The
    multiplier is a parameter; the screen uses [LOOP_MULTIPLIER]. *)
Definition loopedWith (multiplier : nat) (shuffled : list Product) : list Product :=
  seq 0 multiplier ≫= (fun i => imap (loopCopy i) shuffled).

Definition looped (shuffled : list Product) : list Product :=
  loopedWith LOOP_MULTIPLIER shuffled.

(** Products used in examples.  [convertToProduct] gives a product
    the identifier [''] when the API record has neither [_id] nor
    [id]. *)
Definition productA : Product :=
  {| id := lit "a"; title := lit "Lantern"; price := 450 |}.
Definition productB : Product :=
  {| id := lit "b"; title := lit "Compass"; price := 1200 |}.
Definition productWithoutId : Product :=
  {| id := lit ""; title := lit "Map"; price := 80 |}.

(** A product whose identifier is "a", a line feed, then "b". *)
Definition productWithLineFeed : Product :=
  {| id := [97; 10; 98]%N; title := lit "Key"; price := 15 |}.

End ForYouScreen.

(** ** Regular expressions

    The fragment of ECMAScript patterns the source uses, as backtracking
    matchers in continuation-passing style: a matcher consumes a prefix
    of the input and hands the rest to its continuation; when the
    continuation fails, the matcher tries its next alternative. *)

Module RegExp.

Definition isLineTerminator (c : N) : bool :=
  ((c =? 10) || (c =? 13) || (c =? 8232) || (c =? 8233))%N.

(** [.] without the [s] flag *)
Definition dot (c : N) : bool := negb (isLineTerminator c).

(** [\d] *)
Definition digit (c : N) : bool := ((48 <=? c) && (c <=? 57))%N.

Section Matchers.
Context {R : Type}.

(** A run of literal characters. *)
Fixpoint chars (l : jsstring) (k : jsstring -> option R) (s : jsstring)
  : option R :=
  match l with
  | [] => k s
  | c :: l' =>
      match s with
      | x :: r => if (x =? c)%N then chars l' k r else None
      | [] => None
      end
  end.

(** Greedy [cls+]: take one character of the class, then as many
    more as possible, giving characters back one at a time while the
    continuation fails. *)
Fixpoint plus (cls : N -> bool) (k : jsstring -> option R) (s : jsstring)
  : option R :=
  match s with
  | c :: r =>
      if cls c then
        match plus cls k r with
        | Some v => Some v
        | None => k r
        end
      else None
  | [] => None
  end.

(** Greedy [(cls+)]: as [plus], and the continuation also receives
    the text captured by the group ([seen] is what the group has
    consumed so far). *)
Fixpoint plusGroup (cls : N -> bool) (k : jsstring -> jsstring -> option R)
    (seen s : jsstring) : option R :=
  match s with
  | c :: r =>
      if cls c then
        match plusGroup cls k (seen ++ [c]) r with
        | Some v => Some v
        | None => k (seen ++ [c]) r
        end
      else None
  | [] => None
  end.

(** [$]: succeed with [v] at the end of the input only. *)
Definition atEnd (v : R) (s : jsstring) : option R :=
  match s with
  | [] => Some v
  | _ :: _ => None
  end.
End Matchers.

(** What follows the group, [_loop\d+_\d+$]; on success the match
    yields the text of the group. *)
Definition loopSuffix (group1 : jsstring) : jsstring -> option jsstring :=
  chars (lit "_loop")
    (plus digit (chars (lit "_") (plus digit (atEnd group1)))).

(** [id.match(/^(.+)_loop\d+_\d+$/)], returning capture group 1.  The
    pattern starts with [^] and has no [m] flag, so only the attempt at
    index 0 can match. *)
Definition matchLoopId (s : jsstring) : option jsstring :=
  plusGroup dot loopSuffix [] s.

End RegExp.

(** ** Remote favourites API and asynchronous handlers *)

Inductive Request :=
| AddFavorite (productId : jsstring)       (* addFavorite(productId) *)
| RemoveFavorite (productId : jsstring).   (* removeFavorite(productId) *)

(** How the promise of a request settles. *)
Inductive Outcome := Resolved | Rejected.

(** An [async] handler: state updates of type [U] ([setState] calls),
    [console.error], animations, and [await]s of requests, ending in a
    result of type [R]. *)
Inductive Async (U R : Type) :=
| Return (r : R)
| Update (u : U) (k : Async U R)
| ConsoleError (k : Async U R)
| Animate (name : string) (k : Async U R)
| Await (req : Request) (k : Outcome -> Async U R).

Arguments Return {U R} r.
Arguments Update {U R} u k.
Arguments ConsoleError {U R} k.
Arguments Animate {U R} name k.
Arguments Await {U R} req k.

Fixpoint andThen {U A B} (p : Async U A) (f : A -> Async U B) : Async U B :=
  match p with
  | Return r => f r
  | Update u k => Update u (andThen k f)
  | ConsoleError k => ConsoleError (andThen k f)
  | Animate n k => Animate n (andThen k f)
  | Await req k => Await req (fun o => andThen (k o) f)
  end.

Inductive Trace (U : Type) :=
| Updated (u : U)
| Logged
| Animated (name : string)
| Requested (req : Request).

Arguments Updated {U} u.
Arguments Logged {U}.
Arguments Animated {U} name.
Arguments Requested {U} req.

(** Running a handler to completion against a network that settles each
    request as [net] says; [apply] performs a state update. *)
Fixpoint exec {U R S} (apply : U -> S -> S) (net : Request -> Outcome)
    (p : Async U R) (st : S) : S * list (Trace U) * R :=
  match p with
  | Return r => (st, [], r)
  | Update u k =>
      let '(st', tr, r) := exec apply net k (apply u st) in
      (st', Updated u :: tr, r)
  | ConsoleError k =>
      let '(st', tr, r) := exec apply net k st in (st', Logged :: tr, r)
  | Animate n k =>
      let '(st', tr, r) := exec apply net k st in (st', Animated n :: tr, r)
  | Await req k =>
      let '(st', tr, r) := exec apply net (k (net req)) st in
      (st', Requested req :: tr, r)
  end.

(** Running a handler up to its first [await]: the state and trace so
    far, and the request it is suspended on (none when it finished). *)
Fixpoint suspend {U R S} (apply : U -> S -> S) (p : Async U R) (st : S)
    : S * list (Trace U) * option Request :=
  match p with
  | Return _ => (st, [], None)
  | Update u k =>
      let '(st', tr, w) := suspend apply k (apply u st) in
      (st', Updated u :: tr, w)
  | ConsoleError k =>
      let '(st', tr, w) := suspend apply k st in (st', Logged :: tr, w)
  | Animate n k =>
      let '(st', tr, w) := suspend apply k st in (st', Animated n :: tr, w)
  | Await req _ => (st, [Requested req], Some req)
  end.

Definition requestsOf {U} (tr : list (Trace U)) : list Request :=
  omap (fun e => match e with Requested r => Some r | _ => None end) tr.

(** ** EnhancedReelItem: suffix stripping and the optimistic toggle *)

Module EnhancedReelItem.

(** [loopMatch ? loopMatch[1] : id] *)
Definition getOriginalProductId (id : jsstring) : jsstring :=
  match RegExp.matchLoopId id with
  | Some group1 => group1
  | None => id
  end.

(** Identifiers the pattern can strip: at least one character, none
    of them a line terminator. *)
Definition wellFormedId (productId : jsstring) : Prop :=
  productId <> [] /\ Forall (fun c => RegExp.dot c = true) productId.

(** The two pieces of component state the toggle reads and writes.  A
    handler reads them from the render it was created in (its closure)
    and writes them through the setters. *)
Record State := {
  favorited : bool;
  isTogglingFavorite : bool
}.

Inductive Setter :=
| setFavorited (b : bool)
| setIsTogglingFavorite (b : bool).

Definition apply (u : Setter) (st : State) : State :=
  match u with
  | setFavorited b =>
      {| favorited := b; isTogglingFavorite := isTogglingFavorite st |}
  | setIsTogglingFavorite b =>
      {| favorited := favorited st; isTogglingFavorite := b |}
  end.

(** [toggleFavoriteAPI] of the render [c], for the product whose
    stripped identifier is [originalProductId]. *)
Definition toggleFavoriteAPI (originalProductId : jsstring) (c : State)
  : Async Setter bool :=
  if isTogglingFavorite c then Return (favorited c)
  else
    Update (setIsTogglingFavorite true)
      (if favorited c then
         Await (RemoveFavorite originalProductId) (fun o =>
           match o with
           | Resolved =>
               Update (setFavorited false)
                 (Update (setIsTogglingFavorite false) (Return false))
           | Rejected =>
               ConsoleError
                 (Update (setIsTogglingFavorite false) (Return (favorited c)))
           end)
       else
         Await (AddFavorite originalProductId) (fun o =>
           match o with
           | Resolved =>
               Update (setFavorited true)
                 (Update (setIsTogglingFavorite false) (Return true))
           | Rejected =>
               ConsoleError
                 (Update (setIsTogglingFavorite false) (Return (favorited c)))
           end)).

(** The request a toggle sends for a product seen as [favorited]. *)
Definition toggleRequest (originalProductId : jsstring) (favorited : bool)
  : Request :=
  if favorited then RemoveFavorite originalProductId
  else AddFavorite originalProductId.

(** [handleFavoritePress] of the render [c]: the optimistic flip, the
    animations, then [toggleFavoriteAPI()] whose result is dropped. *)
Definition handleFavoritePress (originalProductId : jsstring) (c : State)
  : Async Setter unit :=
  let wasLiked := negb (favorited c) in
  Update (setFavorited wasLiked)
    ((if wasLiked then Animate "heart" else fun k => k)
       (Animate "pulse"
          (andThen (toggleFavoriteAPI originalProductId c)
                   (fun _ => Return tt)))).

End EnhancedReelItem.

(** ** HomeScreen: favourite toggle of the product grid *)

Module HomeFavorites.

(** The functional updates passed to [setFavoriteIds]. *)
Inductive Setter :=
| deleteId (productId : jsstring)   (* prev => { new Set(prev); delete } *)
| addId (productId : jsstring).     (* prev => new Set(prev).add(..)    *)

Definition apply (u : Setter) (prev : gset jsstring) : gset jsstring :=
  match u with
  | deleteId productId => prev ∖ {[ productId ]}
  | addId productId => prev ∪ {[ productId ]}
  end.

(** [handleFavoritePress(product)] of a render whose [favoriteIds] is
    the set [favoriteIds]. *)
Definition handleFavoritePress (product : Product) (favoriteIds : gset jsstring)
  : Async Setter unit :=
  let productId := id product in
  let isFavorite := bool_decide (productId ∈ favoriteIds) in
  if isFavorite then
    Await (RemoveFavorite productId) (fun o =>
      match o with
      | Resolved => Update (deleteId productId) (Return tt)
      | Rejected => ConsoleError (Return tt)
      end)
  else
    Await (AddFavorite productId) (fun o =>
      match o with
      | Resolved => Update (addId productId) (Return tt)
      | Rejected => ConsoleError (Return tt)
      end).

End HomeFavorites.

(** ** FavoritesContext: the session favourites list *)

Module FavoritesContext.

(** [prev.some((p) => p.id === productId)] *)
Definition hasId (productId : jsstring) (prev : list Product) : bool :=
  existsb (fun p => bool_decide (id p = productId)) prev.

(** [prev.filter((p) => p.id !== productId)] *)
Definition withoutId (productId : jsstring) (prev : list Product) : list Product :=
  List.filter (fun p => negb (bool_decide (id p = productId))) prev.

(** The updaters given to [setFavorites]. *)
Definition addToFavorites (product : Product) (prev : list Product) : list Product :=
  if hasId (id product) prev then prev else prev ++ [product].

Definition removeFromFavorites (productId : jsstring) (prev : list Product)
  : list Product :=
  withoutId productId prev.

(** The updater of [toggleFavorite], with the value it assigns to
    [wasAdded]. *)
Definition toggleFavorite (product : Product) (prev : list Product)
  : list Product * bool :=
  if hasId (id product) prev
  then (withoutId (id product) prev, false)
  else (prev ++ [product], true).

Inductive Action :=
| AddToFavorites (product : Product)
| RemoveFromFavorites (productId : jsstring)
| ToggleFavorite (product : Product).

Definition perform (prev : list Product) (a : Action) : list Product :=
  match a with
  | AddToFavorites product => addToFavorites product prev
  | RemoveFromFavorites productId => removeFromFavorites productId prev
  | ToggleFavorite product => fst (toggleFavorite product prev)
  end.

(** The list after a sequence of calls, from the initial [useState([])]. *)
Definition favoritesAfter (actions : list Action) : list Product :=
  fold_left perform actions [].

End FavoritesContext.

(* ================================================================== *)
(** * Part II: properties                                               *)
(* ================================================================== *)

Section OverscrollFacts.
Import HomeScreen.

Lemma attempt_expired now e r :
  qualifies e = true ->
  now - lastOverscrollRef r > OVERSCROLL_WINDOW ->
  handleScrollEndDrag now e r =
    ({| overscrollCountRef := 1; lastOverscrollRef := now |}, [ImpactMedium]).
Proof.
  intros Hq Hgap. unfold handleScrollEndDrag. rewrite Hq.
  destruct (Z.ltb_spec OVERSCROLL_WINDOW (now - lastOverscrollRef r)); [|lia].
  reflexivity.
Qed.

Lemma attempt_chained now e r :
  qualifies e = true ->
  now - lastOverscrollRef r <= OVERSCROLL_WINDOW ->
  overscrollCountRef r + 1 < 3 ->
  handleScrollEndDrag now e r =
    ({| overscrollCountRef := overscrollCountRef r + 1;
        lastOverscrollRef := now |}, [ImpactMedium]).
Proof.
  intros Hq Hgap Hc. unfold handleScrollEndDrag. rewrite Hq.
  destruct (Z.ltb_spec OVERSCROLL_WINDOW (now - lastOverscrollRef r)); [lia|].
  destruct (Z.leb_spec 3 (overscrollCountRef r + 1)); [lia|]. reflexivity.
Qed.

Lemma attempt_third now e r :
  qualifies e = true ->
  now - lastOverscrollRef r <= OVERSCROLL_WINDOW ->
  3 <= overscrollCountRef r + 1 ->
  handleScrollEndDrag now e r =
    ({| overscrollCountRef := 0; lastOverscrollRef := now |},
     [ImpactMedium; NotificationWarning; Navigate "UpsideDown"]).
Proof.
  intros Hq Hgap Hc. unfold handleScrollEndDrag. rewrite Hq.
  destruct (Z.ltb_spec OVERSCROLL_WINDOW (now - lastOverscrollRef r)); [lia|].
  destruct (Z.leb_spec 3 (overscrollCountRef r + 1)); [|lia]. reflexivity.
Qed.

(** The first attempt of a fresh chain leaves the counter at one,
    whatever time the previous attempt was made at. *)
Lemma attempt_fresh now e r :
  qualifies e = true ->
  overscrollCountRef r = 0 \/ now - lastOverscrollRef r > OVERSCROLL_WINDOW ->
  handleScrollEndDrag now e r =
    ({| overscrollCountRef := 1; lastOverscrollRef := now |}, [ImpactMedium]).
Proof.
  intros Hq [H0|Hgap]; [|by apply attempt_expired].
  destruct (Z_le_gt_dec (now - lastOverscrollRef r) OVERSCROLL_WINDOW).
  - rewrite attempt_chained; [|done|done|lia]. by rewrite H0.
  - by apply attempt_expired.
Qed.

(** The attempt after a first one either chains (counter 2) or, when
    it comes late, restarts (counter 1); neither navigates. *)
Lemma attempt_after_one now e last :
  qualifies e = true ->
  exists c, 1 <= c <= 2 /\
    handleScrollEndDrag now e
      {| overscrollCountRef := 1; lastOverscrollRef := last |} =
      ({| overscrollCountRef := c; lastOverscrollRef := now |}, [ImpactMedium]).
Proof.
  intros Hq.
  destruct (Z_le_gt_dec (now - last) OVERSCROLL_WINDOW) as [Hin|Hout].
  - exists 2. split; [lia|]. by rewrite attempt_chained.
  - exists 1. split; [lia|]. by rewrite attempt_expired.
Qed.

(** C1.  Three qualifying overscroll attempts, each within the
    3000 ms window of the one before, that start a chain (the counter
    is 0, as at mount, or the first attempt comes after the window has
    expired): the first two only give haptic feedback, the third
    navigates to 'UpsideDown' once, and the stored counter is 0
    afterwards.  The attempts at 0, 500 and 1200 ms on a freshly
    mounted screen are an instance. *)
Theorem C1_three_attempts_unlock_once
    (r : Refs) (t1 t2 t3 : Z) (e1 e2 e3 : NativeScrollEvent) :
  qualifies e1 = true -> qualifies e2 = true -> qualifies e3 = true ->
  overscrollCountRef r = 0 \/ t1 - lastOverscrollRef r > OVERSCROLL_WINDOW ->
  t2 - t1 <= OVERSCROLL_WINDOW ->
  t3 - t2 <= OVERSCROLL_WINDOW ->
  scrollEnds [(t1, e1); (t2, e2); (t3, e3)] r =
    ({| overscrollCountRef := 0; lastOverscrollRef := t3 |},
     [ [ImpactMedium];
       [ImpactMedium];
       [ImpactMedium; NotificationWarning; Navigate "UpsideDown"] ])
  /\ unlocks (snd (scrollEnds [(t1, e1); (t2, e2); (t3, e3)] r)) = 1%nat
  /\ scrollEnds [(0, e1); (500, e2); (1200, e3)] mount =
    ({| overscrollCountRef := 0; lastOverscrollRef := 1200 |},
     [ [ImpactMedium];
       [ImpactMedium];
       [ImpactMedium; NotificationWarning; Navigate "UpsideDown"] ]).
Proof.
  intros Hq1 Hq2 Hq3 Hfresh H12 H23.
  assert (Hrun : forall r0 a b c,
    overscrollCountRef r0 = 0 \/ a - lastOverscrollRef r0 > OVERSCROLL_WINDOW ->
    b - a <= OVERSCROLL_WINDOW -> c - b <= OVERSCROLL_WINDOW ->
    scrollEnds [(a, e1); (b, e2); (c, e3)] r0 =
      ({| overscrollCountRef := 0; lastOverscrollRef := c |},
       [ [ImpactMedium]; [ImpactMedium];
         [ImpactMedium; NotificationWarning; Navigate "UpsideDown"] ])).
  { intros r0 a b c F Hab Hbc. cbn [scrollEnds].
    rewrite (attempt_fresh a e1 r0 Hq1 F).
    rewrite attempt_chained; cbn; [|done|lia|lia].
    rewrite attempt_third; cbn; [|done|lia|lia].
    reflexivity. }
  split; [by apply Hrun|]. split.
  - by rewrite Hrun.
  - apply Hrun; cbn; unfold OVERSCROLL_WINDOW; lia.
Qed.

Lemma C1_three_attempts_unlock_once_witness :
  scrollEnds [(0, pullAtBottom); (500, pullAtBottom); (1200, pullAtBottom)] mount =
    ({| overscrollCountRef := 0; lastOverscrollRef := 1200 |},
     [ [ImpactMedium];
       [ImpactMedium];
       [ImpactMedium; NotificationWarning; Navigate "UpsideDown"] ]).
Proof.
  assert (H12 : 500 - 0 <= OVERSCROLL_WINDOW) by (vm_compute; discriminate).
  assert (H23 : 1200 - 500 <= OVERSCROLL_WINDOW) by (vm_compute; discriminate).
  exact (proj1 (C1_three_attempts_unlock_once mount 0 500 1200
                  pullAtBottom pullAtBottom pullAtBottom
                  eq_refl eq_refl eq_refl (or_introl eq_refl) H12 H23)).
Defined.

(** C4.  A qualifying attempt that arrives more than 3000 ms after the
    previous one restarts the count: the counter is 1 after it and
    nothing is unlocked.  Hence two attempts, a gap of more than
    3000 ms, and two more attempts never navigate (the counter ends at
    1 or 2); and for the attempts at 0, 500 and 4000 ms on a freshly
    mounted screen the unlock does not fire and the counter is 1 after
    the third. *)
Theorem C4_stale_attempt_restarts
    (r : Refs) (t1 t2 t3 t4 : Z) (e1 e2 e3 e4 : NativeScrollEvent) :
  qualifies e1 = true -> qualifies e2 = true ->
  qualifies e3 = true -> qualifies e4 = true ->
  overscrollCountRef r = 0 \/ t1 - lastOverscrollRef r > OVERSCROLL_WINDOW ->
  t3 - t2 > OVERSCROLL_WINDOW ->
  (forall r0, t3 - lastOverscrollRef r0 > OVERSCROLL_WINDOW ->
     handleScrollEndDrag t3 e3 r0 =
       ({| overscrollCountRef := 1; lastOverscrollRef := t3 |}, [ImpactMedium]))
  /\ (snd (scrollEnds [(t1, e1); (t2, e2); (t3, e3); (t4, e4)] r) =
        [ [ImpactMedium]; [ImpactMedium]; [ImpactMedium]; [ImpactMedium] ]
      /\ unlocks (snd (scrollEnds [(t1, e1); (t2, e2); (t3, e3); (t4, e4)] r)) = 0%nat
      /\ 1 <= overscrollCountRef
                (fst (scrollEnds [(t1, e1); (t2, e2); (t3, e3); (t4, e4)] r)) <= 2)
  /\ (scrollEnds [(0, e1); (500, e2); (4000, e3)] mount =
        ({| overscrollCountRef := 1; lastOverscrollRef := 4000 |},
         [ [ImpactMedium]; [ImpactMedium]; [ImpactMedium] ])
      /\ unlocks (snd (scrollEnds [(0, e1); (500, e2); (4000, e3)] mount)) = 0%nat).
Proof.
  intros Hq1 Hq2 Hq3 Hq4 Hfresh Hgap. split; [|split].
  - intros r0 H. by apply attempt_expired.
  - assert (Hrun : exists c,
      1 <= c <= 2 /\
      scrollEnds [(t1, e1); (t2, e2); (t3, e3); (t4, e4)] r =
        ({| overscrollCountRef := c; lastOverscrollRef := t4 |},
         [ [ImpactMedium]; [ImpactMedium]; [ImpactMedium]; [ImpactMedium] ])).
    { cbn [scrollEnds].
      rewrite (attempt_fresh t1 e1 r Hq1 Hfresh).
      destruct (attempt_after_one t2 e2 t1 Hq2) as (c2 & _ & ->).
      rewrite attempt_expired; cbn; [|done|lia].
      destruct (attempt_after_one t4 e4 t3 Hq4) as (c4 & Hc4 & ->).
      exists c4. split; [lia|reflexivity]. }
    destruct Hrun as (c & Hc & ->). cbn. repeat split; lia.
  - assert (Hrun : scrollEnds [(0, e1); (500, e2); (4000, e3)] mount =
        ({| overscrollCountRef := 1; lastOverscrollRef := 4000 |},
         [ [ImpactMedium]; [ImpactMedium]; [ImpactMedium] ])).
    { cbn [scrollEnds].
      rewrite (attempt_fresh 0 e1 mount Hq1); [|by left].
      rewrite attempt_chained; cbn; [|done|unfold OVERSCROLL_WINDOW; lia|lia].
      rewrite attempt_expired; cbn; [|done|unfold OVERSCROLL_WINDOW; lia].
      reflexivity. }
    rewrite Hrun. split; reflexivity.
Qed.

Lemma C4_stale_attempt_restarts_witness :
  snd (scrollEnds [(0, pullAtBottom); (500, pullAtBottom);
                   (4000, pullAtBottom); (4600, pullAtBottom)] mount) =
    [ [ImpactMedium]; [ImpactMedium]; [ImpactMedium]; [ImpactMedium] ]
  /\ scrollEnds [(0, pullAtBottom); (500, pullAtBottom); (4000, pullAtBottom)] mount =
       ({| overscrollCountRef := 1; lastOverscrollRef := 4000 |},
        [ [ImpactMedium]; [ImpactMedium]; [ImpactMedium] ]).
Proof.
  assert (Hgap : 4000 - 500 > OVERSCROLL_WINDOW) by (vm_compute; reflexivity).
  pose proof (C4_stale_attempt_restarts mount 0 500 4000 4600
                pullAtBottom pullAtBottom pullAtBottom pullAtBottom
                eq_refl eq_refl eq_refl eq_refl (or_introl eq_refl) Hgap)
    as (_ & (H4 & _) & (H3 & _)).
  split; [exact H4 | exact H3].
Defined.

End OverscrollFacts.

Section TapFacts.
Import ReelItem.

Lemma mount_fresh_ids : fresh_ids mount.
Proof. intros i _. apply lookup_empty. Qed.

(** A tap at least [DOUBLE_TAP_DELAY] after the recorded one (the
    boundary included) takes the single-tap branch. *)
Lemma handleTap_single now s :
  DOUBLE_TAP_DELAY <= now - lastTapRef s ->
  handleTap (advance now s) =
    ({| lastTapRef := now; tapTimeoutRef := Some (nextTimerId s);
        timers := <[nextTimerId s := now + DOUBLE_TAP_DELAY]> (timers s);
        nextTimerId := S (nextTimerId s); clock := now |}, []).
Proof.
  intros H. unfold handleTap. cbn [advance clock lastTapRef].
  destruct (Z.ltb_spec (now - lastTapRef s) DOUBLE_TAP_DELAY); [lia|done].
Qed.

(** A tap less than [DOUBLE_TAP_DELAY] after the recorded one takes the
    double-tap branch; only the timer the ref points to is cleared. *)
Lemma handleTap_double now s :
  now - lastTapRef s < DOUBLE_TAP_DELAY ->
  handleTap (advance now s) =
    ({| lastTapRef := 0; tapTimeoutRef := None;
        timers := match tapTimeoutRef s with
                  | Some id => delete id (timers s)
                  | None => timers s
                  end;
        nextTimerId := nextTimerId s; clock := now |}, [DoubleTap now]).
Proof.
  intros H. unfold handleTap. cbn [advance clock lastTapRef tapTimeoutRef].
  destruct (Z.ltb_spec (now - lastTapRef s) DOUBLE_TAP_DELAY); [|lia].
  destruct s as [l [id|] t n c]; reflexivity.
Qed.

Lemma handleTap_cases now s :
  handleTap (advance now s) =
    ({| lastTapRef := now; tapTimeoutRef := Some (nextTimerId s);
        timers := <[nextTimerId s := now + DOUBLE_TAP_DELAY]> (timers s);
        nextTimerId := S (nextTimerId s); clock := now |}, [])
  \/ handleTap (advance now s) =
    ({| lastTapRef := 0; tapTimeoutRef := None;
        timers := match tapTimeoutRef s with
                  | Some id => delete id (timers s)
                  | None => timers s
                  end;
        nextTimerId := nextTimerId s; clock := now |}, [DoubleTap now]).
Proof.
  destruct (Z_lt_le_dec (now - lastTapRef s) DOUBLE_TAP_DELAY).
  - right. by apply handleTap_double.
  - left. by apply handleTap_single.
Qed.

Lemma step_fresh_ids s ev s' out :
  fresh_ids s -> step s ev = Some (s', out) -> fresh_ids s'.
Proof.
  intros Hf Hstep. destruct ev as [now|i now]; cbn [step] in Hstep.
  - destruct (clock s <=? now); [|done].
    injection Hstep as Hstep.
    destruct (handleTap_cases now s) as [H|H]; rewrite H in Hstep;
      injection Hstep as <- _; intros j Hj; cbn in *.
    + rewrite lookup_insert_ne by lia. apply Hf. lia.
    + destruct (tapTimeoutRef s); [|by apply Hf].
      rewrite lookup_delete_None. right. by apply Hf.
  - destruct (timers s !! i) as [due|]; [|done].
    destruct ((due <=? now) && (clock s <=? now)); [|done].
    injection Hstep as <- _. intros j Hj; cbn in *.
    rewrite lookup_delete_None. right. by apply Hf.
Qed.

Lemma step_clock s ev s' out :
  step s ev = Some (s', out) -> clock s <= clock s'.
Proof.
  intros Hstep. destruct ev as [now|i now]; cbn [step] in Hstep.
  - destruct (Z.leb_spec (clock s) now); [|done].
    injection Hstep as Hstep.
    by destruct (handleTap_cases now s) as [Hc|Hc]; rewrite Hc in Hstep;
      injection Hstep as <- _.
  - destruct (timers s !! i) as [due|]; [|done].
    destruct (Z.leb_spec due now); [|done].
    destruct (Z.leb_spec (clock s) now); [|done].
    by injection Hstep as <- _.
Qed.

Lemma run_cons ev evs s s' log :
  run (ev :: evs) s = Some (s', log) ->
  exists s1 out log1,
    step s ev = Some (s1, out) /\ run evs s1 = Some (s', log1) /\
    log = out ++ log1.
Proof.
  cbn [run]. destruct (step s ev) as [[s1 out]|]; [|done].
  destruct (run evs s1) as [[s2 log1]|] eqn:Hrest; [|done].
  intros [= <- <-]. by exists s1, out, log1.
Qed.

(** Taps spaced by the delay or more never pair up: all that happens
    is single-tap callbacks, none before its deadline, and the
    deadlines of the callbacks that ran or are still pending are those
    pending before plus one per tap, 300 ms after it. *)
Lemma run_spaced evs : forall s s' log,
  fresh_ids s ->
  run evs s = Some (s', log) ->
  spaced (lastTapRef s) (tapTimes evs) ->
  Forall ranOnTime log /\
  singleTapDues log ++ pendingDues s' ≡ₚ
    pendingDues s ++ ((fun t => t + DOUBLE_TAP_DELAY) <$> tapTimes evs).
Proof.
  induction evs as [|ev evs IH]; intros s s' log Hf Hrun Hsp.
  - injection Hrun as <- <-. split; [constructor|].
    cbn. by rewrite app_nil_r.
  - apply run_cons in Hrun as (s1 & out & log1 & Hstep & Hrun & ->).
    pose proof (step_fresh_ids _ _ _ _ Hf Hstep) as Hf1.
    destruct ev as [now|i now]; cbn in Hstep, Hsp.
    + destruct (clock s <=? now); [|done].
      destruct Hsp as [Hgap Hsp].
      rewrite (handleTap_single _ _ Hgap) in Hstep.
      injection Hstep as <- <-.
      destruct (IH _ _ _ Hf1 Hrun Hsp) as [Hlog Hperm]. split; [done|].
      cbn [app tapTimes fmap list_fmap]. rewrite Hperm.
      unfold pendingDues at 1; cbn [timers].
      rewrite map_to_list_insert by (apply Hf; lia).
      cbn. by rewrite Permutation_middle.
    + destruct (timers s !! i) as [due|] eqn:Hi; [|done].
      destruct (Z.leb_spec due now); [|done].
      destruct (clock s <=? now); [|done].
      injection Hstep as <- <-.
      destruct (IH _ _ _ Hf1 Hrun Hsp) as [Hlog Hperm].
      split; [by constructor|].
      cbn [app singleTapDues tapTimes]. rewrite Hperm.
      unfold pendingDues; cbn [timers].
      rewrite <- (map_to_list_delete _ _ _ Hi). done.
Qed.

(** C5.  On a freshly mounted item whose taps each come 300 ms or more
    after the one before (the clock counts from the epoch, so the
    first tap is itself at 300 or later), whatever the order in which
    the event loop serves taps and due timers: no double-tap action
    ever runs; every callback that runs is a single tap, not before
    its deadline; each tap has exactly one single-tap callback, set for
    300 ms after that tap, which has either run or is still pending -
    all have run once no timer is pending.  A tap exactly 300 ms after
    the recorded one takes the single-tap branch: it records itself,
    starts a new timer and runs nothing. *)
Theorem C5_spaced_taps_are_single_taps
    (evs : list Event) (s' : State) (log : list Fired) :
  run evs mount = Some (s', log) ->
  spaced 0 (tapTimes evs) ->
  Forall ranOnTime log
  /\ List.filter isDoubleTap log = []
  /\ singleTapDues log ++ pendingDues s' ≡ₚ
       (fun t => t + DOUBLE_TAP_DELAY) <$> tapTimes evs
  /\ (timers s' = ∅ ->
      singleTapDues log ≡ₚ (fun t => t + DOUBLE_TAP_DELAY) <$> tapTimes evs)
  /\ (forall s, handleTap (advance (lastTapRef s + DOUBLE_TAP_DELAY) s) =
        ({| lastTapRef := lastTapRef s + DOUBLE_TAP_DELAY;
            tapTimeoutRef := Some (nextTimerId s);
            timers := <[nextTimerId s :=
                         lastTapRef s + DOUBLE_TAP_DELAY + DOUBLE_TAP_DELAY]>
                        (timers s);
            nextTimerId := S (nextTimerId s);
            clock := lastTapRef s + DOUBLE_TAP_DELAY |}, [])).
Proof.
  intros Hrun Hsp.
  destruct (run_spaced evs mount s' log mount_fresh_ids Hrun Hsp)
    as [Hlog Hperm].
  unfold pendingDues at 2 in Hperm. cbn [mount timers] in Hperm.
  rewrite map_to_list_empty in Hperm. cbn in Hperm.
  split; [done|]. split; [|split; [done|split]].
  - clear -Hlog. induction Hlog as [|f l Hf _ IH]; [done|].
    destruct f; [done|destruct Hf].
  - intros He. rewrite <- Hperm. unfold pendingDues. rewrite He.
    rewrite map_to_list_empty. cbn. by rewrite app_nil_r.
  - intros s. apply handleTap_single. lia.
Qed.

Lemma C5_spaced_taps_are_single_taps_witness :
  Forall ranOnTime [SingleTap 1300 1300; SingleTap 1600 1604]
  /\ [1300; 1600] ≡ₚ (fun t => t + DOUBLE_TAP_DELAY) <$> [1000; 1300].
Proof.
  assert (Hrun : run [Tap 1000; Tap 1300; TimerFires 1 1300; TimerFires 2 1604]
                   mount =
                 Some ({| lastTapRef := 1300; tapTimeoutRef := None;
                          timers := ∅; nextTimerId := 3; clock := 1604 |},
                       [SingleTap 1300 1300; SingleTap 1600 1604]))
    by (vm_compute; reflexivity).
  assert (Hsp : spaced 0 [1000; 1300])
    by (cbn; unfold DOUBLE_TAP_DELAY; lia).
  pose proof (C5_spaced_taps_are_single_taps _ _ _ Hrun Hsp)
    as (Hlog & _ & _ & Hall & _).
  split; [exact Hlog | exact (Hall eq_refl)].
Defined.

(** Two taps served one right after the other, the second less than
    300 ms after the first: the timer the first tap started is cleared
    (the timers pending afterwards are those pending before), and the
    double-tap action runs once, during the second tap. *)
Lemma adjacent_pair_is_double_tap s t1 t2 :
  fresh_ids s -> clock s <= t1 ->
  DOUBLE_TAP_DELAY <= t1 - lastTapRef s ->
  t1 <= t2 < t1 + DOUBLE_TAP_DELAY ->
  run [Tap t1; Tap t2] s =
    Some ({| lastTapRef := 0; tapTimeoutRef := None; timers := timers s;
             nextTimerId := S (nextTimerId s); clock := t2 |},
          [DoubleTap t2]).
Proof.
  intros Hf Hc Hgap Ht. cbn [run step].
  destruct (Z.leb_spec (clock s) t1); [|lia].
  rewrite (handleTap_single _ _ Hgap). cbn [clock].
  destruct (Z.leb_spec t1 t2); [|lia].
  rewrite handleTap_double by (cbn; lia). cbn.
  rewrite delete_insert_id by (apply Hf; lia). done.
Qed.

(** When no timer is pending before such a pair, none can run between
    its taps (the only one is due 300 ms after the first tap) and none
    is left after it: no single-tap callback comes out of the pair. *)
Lemma quiet_pair_runs_no_single_tap s t1 t2 :
  fresh_ids s -> timers s = ∅ -> clock s <= t1 ->
  DOUBLE_TAP_DELAY <= t1 - lastTapRef s ->
  t1 <= t2 < t1 + DOUBLE_TAP_DELAY ->
  (forall i now, now <= t2 ->
     step (fst (handleTap (advance t1 s))) (TimerFires i now) = None)
  /\ exists s2,
       run [Tap t1; Tap t2] s = Some (s2, [DoubleTap t2]) /\
       forall i now, step s2 (TimerFires i now) = None.
Proof.
  intros Hf He Hc Hgap Ht. split.
  - intros i now Hnow. rewrite (handleTap_single _ _ Hgap). cbn.
    rewrite He. destruct (decide (nextTimerId s = i)) as [->|Hne].
    + rewrite lookup_insert_eq.
      destruct (Z.leb_spec (t1 + DOUBLE_TAP_DELAY) now); [lia|done].
    + rewrite lookup_insert_ne by done. by rewrite lookup_empty.
  - eexists. split; [by apply adjacent_pair_is_double_tap|].
    intros i now. cbn. by rewrite He, lookup_empty.
Qed.

(** As long as timers are served before the taps that come at their
    deadline or later, the ref keeps tracking the timers: a double tap
    then always finds the pending timer in the ref and clears it. *)
Lemma prompt_step_tracked s ev s1 out :
  tracked s ->
  match ev with
  | Tap now => map_Forall (fun _ due => now < due) (timers s)
  | TimerFires _ _ => True
  end ->
  step s ev = Some (s1, out) ->
  tracked s1 /\ (List.filter isDoubleTap out <> [] -> timers s1 = ∅).
Proof.
  intros Htr Hprompt Hstep. destruct ev as [now|i now]; cbn [step] in Hstep.
  - destruct (clock s <=? now); [|done]. injection Hstep as Hstep.
    destruct (Z_lt_le_dec (now - lastTapRef s) DOUBLE_TAP_DELAY) as [Hlt|Hge].
    + rewrite handleTap_double in Hstep by done. injection Hstep as <- <-.
      assert (He : match tapTimeoutRef s with
                   | Some id => delete id (timers s)
                   | None => timers s
                   end = ∅).
      { destruct Htr as [[-> ->]|(id & -> & ->)]; [done|].
        apply delete_singleton_eq. }
      split; [left; by cbn|by cbn].
    + rewrite handleTap_single in Hstep by done. injection Hstep as <- <-.
      split; [|by cbn]. right. exists (nextTimerId s). cbn. split; [done|].
      destruct Htr as [[_ ->]|(id & _ & Ht)]; [done|].
      exfalso. specialize (Hprompt id (lastTapRef s + DOUBLE_TAP_DELAY)).
      rewrite Ht, lookup_singleton_eq in Hprompt.
      specialize (Hprompt eq_refl). cbn in Hprompt. lia.
  - destruct (timers s !! i) as [due|] eqn:Hi; [|done].
    destruct ((due <=? now) && (clock s <=? now)); [|done].
    injection Hstep as <- <-. split; [|by cbn]. left. cbn. split; [done|].
    destruct Htr as [[_ Ht]|(id & _ & Ht)]; rewrite Ht in Hi |- *.
    + by rewrite lookup_empty in Hi.
    + apply lookup_singleton_Some in Hi as [-> _]. apply delete_singleton_eq.
Qed.

Lemma prompt_run_tracked evs : forall s s' log,
  tracked s -> prompt evs s -> run evs s = Some (s', log) -> tracked s'.
Proof.
  induction evs as [|ev evs IH]; intros s s' log Htr Hp Hrun.
  - by injection Hrun as <- _.
  - apply run_cons in Hrun as (s1 & out & log1 & Hstep & Hrun & _).
    destruct Hp as [Hev Hp]. rewrite Hstep in Hp.
    destruct (prompt_step_tracked _ _ _ _ Htr Hev Hstep) as [Htr1 _].
    by apply (IH s1 s' log1).
Qed.

(** C3 (the code fails it).  A second tap less than 300 ms after the
    first should cancel the first tap's pending single-tap callback and
    run the double-tap action alone.  Run: taps at 1000 and 1300; the
    timer of the first tap (due at 1300) is served after the tap at
    1300 and resets [tapTimeoutRef], which by then points to the
    second timer; a tap at 1400, 100 ms after the tap at 1300, runs
    the double-tap action but finds the ref empty and clears nothing;
    the timer of the tap at 1300 runs at 1600.  The pair (1300, 1400)
    gets its double tap and a single tap as well. *)
Theorem C3_double_tap_leaves_single_tap_pending :
  run [Tap 1000; Tap 1300; TimerFires 1 1300; Tap 1400] mount =
    Some ({| lastTapRef := 0; tapTimeoutRef := None;
             timers := {[ 2%nat := 1600 ]};
             nextTimerId := 3; clock := 1400 |},
          [SingleTap 1300 1300; DoubleTap 1400])
  /\ run [Tap 1000; Tap 1300; TimerFires 1 1300; Tap 1400; TimerFires 2 1600]
       mount =
    Some ({| lastTapRef := 0; tapTimeoutRef := None; timers := ∅;
             nextTimerId := 3; clock := 1600 |},
          [SingleTap 1300 1300; DoubleTap 1400; SingleTap 1600 1600]).
Proof. split; vm_compute; reflexivity. Qed.

End TapFacts.

Section FeedFacts.
Import ForYouScreen RegExp EnhancedReelItem.

(** *** Decimal digits *)

Lemma digitsOf_digits u : Forall (fun c => digit c = true) (digitsOf u).
Proof. induction u; cbn [digitsOf]; constructor; done. Qed.

Lemma digitsOf_inj u v : digitsOf u = digitsOf v -> u = v.
Proof.
  revert v. induction u; intros v H; destruct v; cbn [digitsOf] in H;
    try discriminate; try reflexivity;
    injection H as H; f_equal; by apply IHu.
Qed.

Lemma numberToString_digits n :
  Forall (fun c => digit c = true) (numberToString n).
Proof. apply digitsOf_digits. Qed.

Lemma numberToString_inj n m :
  numberToString n = numberToString m -> n = m.
Proof. intros H. by apply Unsigned.to_uint_inj, digitsOf_inj. Qed.

Lemma numberToString_nonempty n : numberToString n <> [].
Proof.
  unfold numberToString. intros H.
  assert (Hn : Nat.to_uint n = Decimal.Nil) by (by destruct (Nat.to_uint n)).
  pose proof (Unsigned.to_of (Nat.to_uint n)) as Hu.
  rewrite Unsigned.of_to, Hn in Hu. discriminate Hu.
Qed.

(** *** Reading a run of digits

    A run of digits followed by a character that is not a digit can
    be read off a string in one way only; the same from the end. *)

Lemma digits_head_unique ds : forall es (x y : N) (a b : jsstring),
  Forall (fun c => digit c = true) ds ->
  Forall (fun c => digit c = true) es ->
  digit x = false -> digit y = false ->
  ds ++ x :: a = es ++ y :: b ->
  ds = es /\ x = y /\ a = b.
Proof.
  induction ds as [|d ds IH]; intros es x y a b Hds Hes Hx Hy Heq.
  - destruct es as [|e es]; cbn in Heq.
    + by injection Heq as -> ->.
    + injection Heq as -> _. apply Forall_cons in Hes as [He _]. congruence.
  - destruct es as [|e es]; cbn in Heq.
    + injection Heq as -> _. apply Forall_cons in Hds as [Hd _]. congruence.
    + injection Heq as -> Heq.
      apply Forall_cons in Hds as [_ Hds]. apply Forall_cons in Hes as [_ Hes].
      destruct (IH es x y a b Hds Hes Hx Hy Heq) as (-> & -> & ->). done.
Qed.

Lemma digits_tail_unique (a b ds es : jsstring) (x y : N) :
  Forall (fun c => digit c = true) ds ->
  Forall (fun c => digit c = true) es ->
  digit x = false -> digit y = false ->
  a ++ x :: ds = b ++ y :: es ->
  a = b /\ x = y /\ ds = es.
Proof.
  intros Hds Hes Hx Hy Heq.
  apply (f_equal (@rev N)) in Heq.
  rewrite !rev_app_distr in Heq. cbn [rev] in Heq.
  rewrite <- !app_assoc in Heq. cbn [app] in Heq.
  apply digits_head_unique in Heq as (Hd & -> & Ha);
    [|by apply Forall_rev|by apply Forall_rev|done|done].
  apply rev_inj in Hd. apply rev_inj in Ha. done.
Qed.

(** The parts of a looped identifier: base, pass and index. *)
Lemma loopId_parts (p q d1 d2 e1 e2 : jsstring) :
  Forall (fun c => digit c = true) d1 -> Forall (fun c => digit c = true) d2 ->
  Forall (fun c => digit c = true) e1 -> Forall (fun c => digit c = true) e2 ->
  p ++ lit "_loop" ++ d1 ++ lit "_" ++ d2 = q ++ lit "_loop" ++ e1 ++ lit "_" ++ e2 ->
  p = q /\ d1 = e1 /\ d2 = e2.
Proof.
  intros Hd1 Hd2 He1 He2 Heq.
  assert (E : forall (a b c : jsstring),
             a ++ lit "_loop" ++ b ++ lit "_" ++ c =
             (a ++ lit "_loop" ++ b) ++ 95%N :: c)
    by (intros; by rewrite <- !app_assoc).
  rewrite !E in Heq.
  apply digits_tail_unique in Heq as (Heq & _ & H2); [|done..].
  assert (F : forall (a b : jsstring),
             a ++ lit "_loop" ++ b =
             (a ++ [95; 108; 111; 111]%N) ++ 112%N :: b)
    by (intros; by rewrite <- app_assoc).
  rewrite !F in Heq.
  apply digits_tail_unique in Heq as (Heq & _ & H1); [|done..].
  apply app_inv_tail in Heq. done.
Qed.

Lemma loopId_inj p q i j idx jdx :
  loopId p i idx = loopId q j jdx -> p = q /\ i = j /\ idx = jdx.
Proof.
  unfold loopId. intros Heq.
  apply loopId_parts in Heq as (-> & Hi & Hidx);
    [|apply numberToString_digits..].
  apply numberToString_inj in Hi. apply numberToString_inj in Hidx. done.
Qed.

(** *** The matchers *)

Lemma chars_Some {R} l (k : jsstring -> option R) s v :
  chars l k s = Some v <-> exists r, s = l ++ r /\ k r = Some v.
Proof.
  revert s. induction l as [|c l IH]; intros s; cbn [chars app].
  - split; [by exists s|by intros (r & -> & H)].
  - destruct s as [|x s].
    + split; [done|by intros (r & H & _)].
    + destruct (N.eqb_spec x c) as [->|Hne].
      * rewrite IH. split.
        -- intros (r & -> & H). by exists r.
        -- intros (r & [= ->] & H). by exists r.
      * split; [done|]. intros (r & [= -> _] & _). done.
Qed.

Lemma plus_Some {R} cls (k : jsstring -> option R) s v :
  plus cls k s = Some v ->
  exists pre post,
    s = pre ++ post /\ pre <> [] /\
    Forall (fun c => cls c = true) pre /\ k post = Some v.
Proof.
  induction s as [|c s IH]; cbn [plus]; [done|].
  destruct (cls c) eqn:Hc; [|done].
  destruct (plus cls k s) as [w|] eqn:Hs.
  - intros [= ->]. destruct (IH eq_refl) as (pre & post & -> & _ & Hpre & Hk).
    exists (c :: pre), post. repeat split; [done|by constructor|done].
  - intros Hk. exists [c], s. repeat split; [done|by repeat constructor|done].
Qed.

Lemma plus_runs {R} cls (k : jsstring -> option R) pre post :
  pre <> [] -> Forall (fun c => cls c = true) pre ->
  is_Some (k post) -> is_Some (plus cls k (pre ++ post)).
Proof.
  induction pre as [|c pre IH]; [done|]. intros _ Hpre Hk.
  apply Forall_cons in Hpre as [Hc Hpre]. cbn [app plus]. rewrite Hc.
  destruct pre as [|c' pre].
  - cbn [app]. by destruct (plus cls k post).
  - destruct (IH ltac:(done) Hpre Hk) as [w ->]. done.
Qed.

Lemma plusGroup_Some {R} cls (k : jsstring -> jsstring -> option R) s :
  forall seen v,
  plusGroup cls k seen s = Some v ->
  exists pre post,
    s = pre ++ post /\ pre <> [] /\
    Forall (fun c => cls c = true) pre /\ k (seen ++ pre) post = Some v.
Proof.
  induction s as [|c s IH]; intros seen v; cbn [plusGroup]; [done|].
  destruct (cls c) eqn:Hc; [|done].
  destruct (plusGroup cls k (seen ++ [c]) s) as [w|] eqn:Hs.
  - intros [= ->]. destruct (IH _ _ Hs) as (pre & post & -> & _ & Hpre & Hk).
    exists (c :: pre), post. rewrite <- app_assoc in Hk.
    repeat split; [done|by constructor|done].
  - intros Hk. exists [c], s. repeat split; [done|by repeat constructor|done].
Qed.

Lemma plusGroup_runs {R} cls (k : jsstring -> jsstring -> option R) pre post :
  forall seen,
  pre <> [] -> Forall (fun c => cls c = true) pre ->
  is_Some (k (seen ++ pre) post) ->
  is_Some (plusGroup cls k seen (pre ++ post)).
Proof.
  induction pre as [|c pre IH]; [done|]. intros seen _ Hpre Hk.
  apply Forall_cons in Hpre as [Hc Hpre]. cbn [app plusGroup]. rewrite Hc.
  destruct pre as [|c' pre].
  - cbn [app]. by destruct (plusGroup cls k (seen ++ [c]) post).
  - destruct (IH (seen ++ [c]) ltac:(done) Hpre) as [w ->]; [|done].
    by rewrite <- app_assoc.
Qed.

Lemma loopSuffix_Some g s v :
  loopSuffix g s = Some v ->
  v = g /\ exists d1 d2,
    s = lit "_loop" ++ d1 ++ lit "_" ++ d2 /\
    Forall (fun c => digit c = true) d1 /\
    Forall (fun c => digit c = true) d2.
Proof.
  unfold loopSuffix. intros H.
  apply chars_Some in H as (r1 & -> & H).
  apply plus_Some in H as (d1 & r2 & -> & _ & Hd1 & H).
  apply chars_Some in H as (r3 & -> & H).
  apply plus_Some in H as (d2 & r4 & -> & _ & Hd2 & H).
  destruct r4; [|done]. injection H as <-.
  split; [done|]. exists d1, d2. by rewrite app_nil_r.
Qed.

Lemma loopSuffix_runs g i idx :
  is_Some (loopSuffix g
             (lit "_loop" ++ numberToString i ++ lit "_" ++ numberToString idx)).
Proof.
  unfold loopSuffix.
  assert (H4 : is_Some (atEnd g ([] : jsstring))) by done.
  assert (H3 : is_Some (plus digit (atEnd g) (numberToString idx))).
  { rewrite <- (app_nil_r (numberToString idx)).
    apply plus_runs;
      [apply numberToString_nonempty|apply numberToString_digits|done]. }
  assert (H2 : is_Some (chars (lit "_") (plus digit (atEnd g))
                          (lit "_" ++ numberToString idx))).
  { destruct H3 as [w Hw]. exists w. apply chars_Some. by eexists. }
  assert (H1 : is_Some (plus digit (chars (lit "_") (plus digit (atEnd g)))
                          (numberToString i ++ lit "_" ++ numberToString idx))).
  { apply plus_runs;
      [apply numberToString_nonempty|apply numberToString_digits|done]. }
  destruct H1 as [w Hw]. exists w. apply chars_Some. by eexists.
Qed.

(** Stripping the suffix of a looped identifier gives back the base,
    provided the base is not empty and has no line terminator. *)
Lemma getOriginalProductId_loopId p i idx :
  p <> [] -> Forall (fun c => dot c = true) p ->
  getOriginalProductId (loopId p i idx) = p.
Proof.
  intros Hne Hdot. unfold getOriginalProductId, matchLoopId, loopId.
  destruct (plusGroup_runs dot loopSuffix p
              (lit "_loop" ++ numberToString i ++ lit "_" ++ numberToString idx)
              [] Hne Hdot (loopSuffix_runs _ i idx)) as [v Hv].
  rewrite Hv.
  apply plusGroup_Some in Hv as (pre & post & Heq & _ & _ & Hk).
  apply loopSuffix_Some in Hk as (-> & d1 & d2 & -> & Hd1 & Hd2).
  cbn [app].
  apply loopId_parts in Heq as (-> & _ & _);
    [done|apply numberToString_digits..|done|done].
Qed.

(** *** The looped feed *)

Lemma length_loopedWith m (shuffled : list Product) :
  length (loopedWith m shuffled) = (m * length shuffled)%nat.
Proof.
  unfold loopedWith. generalize 0%nat.
  induction m as [|m IH]; intros start; [done|].
  cbn [seq]. rewrite bind_cons, length_app, length_imap, IH. lia.
Qed.

Lemma elem_of_loopedWith e m (shuffled : list Product) :
  e ∈ loopedWith m shuffled <->
  exists i idx p,
    (i < m)%nat /\ shuffled !! idx = Some p /\ e = loopCopy i idx p.
Proof.
  unfold loopedWith. rewrite list_elem_of_bind. split.
  - intros (i & He & Hi). apply elem_of_seq in Hi.
    apply elem_of_lookup_imap in He as (idx & p & -> & Hp).
    exists i, idx, p. split; [lia|done].
  - intros (i & idx & p & Hi & Hp & ->). exists i. split.
    + by apply elem_of_lookup_imap_2.
    + apply elem_of_seq. lia.
Qed.

Lemma loopCopy_id_inj i j idx jdx (p q : Product) :
  id (loopCopy i idx p) = id (loopCopy j jdx q) ->
  i = j /\ idx = jdx /\ id p = id q.
Proof. cbn. intros H. apply loopId_inj in H. tauto. Qed.

Lemma NoDup_loopedWith_ids m (shuffled : list Product) :
  NoDup (id <$> loopedWith m shuffled).
Proof.
  apply NoDup_fmap_2_strong.
  - intros x y Hx Hy Hid.
    apply elem_of_loopedWith in Hx as (i & idx & p & _ & Hp & ->).
    apply elem_of_loopedWith in Hy as (j & jdx & q & _ & Hq & ->).
    apply loopCopy_id_inj in Hid as (-> & -> & _). congruence.
  - unfold loopedWith. apply NoDup_bind; [| |apply NoDup_seq].
    + intros i j y _ _ Hi Hj.
      apply elem_of_lookup_imap in Hi as (idx & p & -> & _).
      apply elem_of_lookup_imap in Hj as (jdx & q & Heq & _).
      apply (f_equal id), loopCopy_id_inj in Heq. tauto.
    + intros i _. apply NoDup_alt. intros a b x Ha Hb.
      rewrite list_lookup_imap in Ha, Hb.
      destruct (shuffled !! a) as [pa|]; [|done].
      destruct (shuffled !! b) as [pb|]; [|done].
      cbn in Ha, Hb.
      assert (Heq : loopCopy i a pa = loopCopy i b pb) by congruence.
      apply (f_equal id), loopCopy_id_inj in Heq. tauto.
Qed.

(** C2 (as amended).  For every list of M products whose identifiers
    are not empty and contain no line terminator, and every order the
    shuffle leaves them in: the feed looped with LOOP_MULTIPLIER = 10
    has exactly 10*M entries, the synthesized identifiers are pairwise
    distinct, and [getOriginalProductId] maps the identifier of every
    entry back to the identifier of the product it was copied from,
    which is in the input list. *)
Theorem C2_looped_feed_round_trip (products shuffled : list Product) :
  shuffled ≡ₚ products ->
  (forall p, p ∈ products -> wellFormedId (id p)) ->
  length (looped shuffled) = (10 * length products)%nat
  /\ NoDup (id <$> looped shuffled)
  /\ forall e, e ∈ looped shuffled ->
       exists i idx p,
         (i < LOOP_MULTIPLIER)%nat /\ shuffled !! idx = Some p /\
         id e = loopId (id p) i idx /\
         getOriginalProductId (id e) = id p /\
         id p ∈ id <$> products.
Proof.
  intros Hperm Hwf. unfold looped. split; [|split].
  - rewrite length_loopedWith. by rewrite Hperm.
  - apply NoDup_loopedWith_ids.
  - intros e He.
    apply elem_of_loopedWith in He as (i & idx & p & Hi & Hp & ->).
    assert (Hin : p ∈ products).
    { rewrite <- Hperm. by eapply list_elem_of_lookup_2. }
    destruct (Hwf p Hin) as [Hne Hdot].
    exists i, idx, p. repeat split; [done..| |].
    + cbn. by apply getOriginalProductId_loopId.
    + by apply list_elem_of_fmap_2.
Qed.

Lemma C2_looped_feed_round_trip_witness :
  length (looped [productB; productA]) = 20%nat
  /\ NoDup (id <$> looped [productB; productA])
  /\ forall e, e ∈ looped [productB; productA] ->
       exists i idx p,
         (i < LOOP_MULTIPLIER)%nat /\
         [productB; productA] !! idx = Some p /\
         id e = loopId (id p) i idx /\
         getOriginalProductId (id e) = id p /\
         id p ∈ id <$> [productA; productB].
Proof.
  apply (C2_looped_feed_round_trip [productA; productB] [productB; productA]).
  - apply perm_swap.
  - intros p Hp. apply elem_of_cons in Hp as [->|Hp].
    + split; [discriminate|repeat constructor].
    + apply elem_of_cons in Hp as [->|Hp].
      * split; [discriminate|repeat constructor].
      * by apply elem_of_nil in Hp.
Defined.

(** C2 as stated fails: for a product without identifier the looped
    identifier is ["_loop0_0"], the pattern demands at least one
    character before the suffix, and [getOriginalProductId] returns the
    looped identifier unchanged - not an identifier of the input.  The
    same happens when the identifier holds a line terminator, which [.]
    does not match. *)
Lemma C2_ids_the_pattern_cannot_strip :
  (exists e,
     e ∈ looped [productWithoutId]
     /\ id e = lit "_loop0_0"
     /\ getOriginalProductId (id e) = lit "_loop0_0"
     /\ getOriginalProductId (id e) ∉ id <$> [productWithoutId])
  /\ (exists e,
        e ∈ looped [productWithLineFeed]
        /\ id e = [97; 10; 98]%N ++ lit "_loop0_0"
        /\ getOriginalProductId (id e) = [97; 10; 98]%N ++ lit "_loop0_0"
        /\ getOriginalProductId (id e) ∉ id <$> [productWithLineFeed]).
Proof.
  split.
  - exists (loopCopy 0 0 productWithoutId). split; [|split; [|split]].
    + apply elem_of_loopedWith. exists 0%nat, 0%nat, productWithoutId.
      split; [unfold LOOP_MULTIPLIER; lia|done].
    + reflexivity.
    + vm_compute. reflexivity.
    + replace (getOriginalProductId (id (loopCopy 0 0 productWithoutId)))
        with (lit "_loop0_0") by (vm_compute; reflexivity).
      intros H. apply list_elem_of_In in H. vm_compute in H.
      destruct H as [H|[]]. discriminate H.
  - exists (loopCopy 0 0 productWithLineFeed). split; [|split; [|split]].
    + apply elem_of_loopedWith. exists 0%nat, 0%nat, productWithLineFeed.
      split; [unfold LOOP_MULTIPLIER; lia|done].
    + reflexivity.
    + vm_compute. reflexivity.
    + replace (getOriginalProductId (id (loopCopy 0 0 productWithLineFeed)))
        with ([97; 10; 98]%N ++ lit "_loop0_0") by (vm_compute; reflexivity).
      intros H. apply list_elem_of_In in H. vm_compute in H.
      destruct H as [H|[]]. discriminate H.
Qed.

(** C8 (as amended).  Input products with identifiers "a" and "b",
    looped with multiplier 2: whatever order the shuffle leaves them
    in, the feed has exactly 4 entries and the base identifiers
    recovered from all entries are the set {a, b}.  The synthesized
    identifiers are a_loop0_0, b_loop0_1, a_loop1_0, b_loop1_1 when the
    shuffle keeps the order, and b_loop0_0, a_loop0_1, b_loop1_0,
    a_loop1_1 when it swaps the two. *)
Theorem C8_two_products_looped_twice (A B : Product) (shuffled : list Product) :
  id A = lit "a" -> id B = lit "b" ->
  shuffled ≡ₚ [A; B] ->
  length (loopedWith 2 shuffled) = 4%nat
  /\ (shuffled = [A; B] \/ shuffled = [B; A])
  /\ (shuffled = [A; B] ->
      id <$> loopedWith 2 shuffled =
        [lit "a_loop0_0"; lit "b_loop0_1"; lit "a_loop1_0"; lit "b_loop1_1"])
  /\ (shuffled = [B; A] ->
      id <$> loopedWith 2 shuffled =
        [lit "b_loop0_0"; lit "a_loop0_1"; lit "b_loop1_0"; lit "a_loop1_1"])
  /\ list_to_set (getOriginalProductId <$> (id <$> loopedWith 2 shuffled)) =
       ({[ lit "a"; lit "b" ]} : gset jsstring).
Proof.
  intros HA HB Hperm.
  assert (Hcases : shuffled = [A; B] \/ shuffled = [B; A]).
  { symmetry in Hperm. by apply Permutation_length_2_inv in Hperm. }
  assert (Hkeep : id <$> loopedWith 2 [A; B] =
            [lit "a_loop0_0"; lit "b_loop0_1"; lit "a_loop1_0"; lit "b_loop1_1"]).
  { cbn. rewrite HA, HB. reflexivity. }
  assert (Hswap : id <$> loopedWith 2 [B; A] =
            [lit "b_loop0_0"; lit "a_loop0_1"; lit "b_loop1_0"; lit "a_loop1_1"]).
  { cbn. rewrite HA, HB. reflexivity. }
  split; [|split; [done|split; [by intros ->|split; [by intros ->|]]]].
  - rewrite length_loopedWith, Hperm. reflexivity.
  - destruct Hcases as [-> | ->].
    + rewrite Hkeep.
      replace (getOriginalProductId <$>
                 [lit "a_loop0_0"; lit "b_loop0_1"; lit "a_loop1_0"; lit "b_loop1_1"])
        with [lit "a"; lit "b"; lit "a"; lit "b"] by (vm_compute; reflexivity).
      set_solver.
    + rewrite Hswap.
      replace (getOriginalProductId <$>
                 [lit "b_loop0_0"; lit "a_loop0_1"; lit "b_loop1_0"; lit "a_loop1_1"])
        with [lit "b"; lit "a"; lit "b"; lit "a"] by (vm_compute; reflexivity).
      set_solver.
Qed.

Lemma C8_two_products_looped_twice_witness :
  length (loopedWith 2 [productB; productA]) = 4%nat
  /\ id <$> loopedWith 2 [productB; productA] =
       [lit "b_loop0_0"; lit "a_loop0_1"; lit "b_loop1_0"; lit "a_loop1_1"]
  /\ list_to_set (getOriginalProductId <$>
                    (id <$> loopedWith 2 [productB; productA])) =
       ({[ lit "a"; lit "b" ]} : gset jsstring).
Proof.
  pose proof (C8_two_products_looped_twice productA productB
                [productB; productA] eq_refl eq_refl (perm_swap _ _ _))
    as (Hlen & _ & _ & Hswap & Hbase).
  split; [exact Hlen|]. split; [exact (Hswap eq_refl)|exact Hbase].
Defined.

(** C8 as stated fails: when the shuffle puts "b" first, the feed
    holds the identifier b_loop0_0, which is not one of a_loop0_0,
    b_loop0_1, a_loop1_0, b_loop1_1. *)
Lemma C8_swapped_shuffle_has_other_ids :
  [productB; productA] ≡ₚ [productA; productB]
  /\ lit "b_loop0_0" ∈ id <$> loopedWith 2 [productB; productA]
  /\ lit "b_loop0_0" ∉
       [lit "a_loop0_0"; lit "b_loop0_1"; lit "a_loop1_0"; lit "b_loop1_1"].
Proof.
  split; [apply perm_swap|]. split.
  - apply list_elem_of_In. vm_compute. by left.
  - intros H. apply list_elem_of_In in H. vm_compute in H.
    repeat (destruct H as [H|H]; [discriminate H|]). done.
Qed.

End FeedFacts.

Section ReelFavoriteFacts.
Import EnhancedReelItem.

(** C6 (as amended).  An invocation of [toggleFavoriteAPI] from a
    render in which no toggle is in flight ([isTogglingFavorite]
    false) issues exactly one network call - [addFavorite] when the
    product is not favorited in that render, [removeFavorite] when it
    is; when the call succeeds it stores and returns the new favorited
    state (true if added, false if removed), when the call fails it
    leaves [favorited] alone and returns the old value; either way
    [isTogglingFavorite] is false again at the end.  An invocation from
    a render in which a toggle is in flight is locked out: it issues no
    call, changes nothing and returns the current favorited value. *)
Theorem C6_toggle_issues_one_call_unless_locked
    (productId : jsstring) (net : Request -> Outcome) (c st : State) :
  isTogglingFavorite c = false ->
  (exists st' tr result,
     exec apply net (toggleFavoriteAPI productId c) st = (st', tr, result)
     /\ requestsOf tr = [toggleRequest productId (favorited c)]
     /\ isTogglingFavorite st' = false
     /\ match net (toggleRequest productId (favorited c)) with
        | Resolved =>
            result = negb (favorited c) /\ favorited st' = negb (favorited c)
        | Rejected =>
            result = favorited c /\ favorited st' = favorited st
        end)
  /\ exec apply net
       (toggleFavoriteAPI productId
          {| favorited := favorited c; isTogglingFavorite := true |}) st =
     (st, [], favorited c).
Proof.
  intros Hfree. split; [|reflexivity].
  unfold toggleFavoriteAPI, toggleRequest. rewrite Hfree.
  destruct (favorited c); cbn [exec];
    match goal with |- context [net ?r] => destruct (net r) eqn:Hnet end;
    cbn; do 3 eexists; (split; [reflexivity|]); cbn; rewrite ?Hnet; done.
Qed.

Lemma C6_toggle_issues_one_call_unless_locked_witness :
  (exists st' tr result,
     exec apply (fun _ => Resolved)
       (toggleFavoriteAPI (lit "a")
          {| favorited := false; isTogglingFavorite := false |})
       {| favorited := true; isTogglingFavorite := false |} = (st', tr, result)
     /\ requestsOf tr = [AddFavorite (lit "a")]
     /\ isTogglingFavorite st' = false
     /\ result = true /\ favorited st' = true).
Proof.
  destruct (C6_toggle_issues_one_call_unless_locked (lit "a")
              (fun _ => Resolved)
              {| favorited := false; isTogglingFavorite := false |}
              {| favorited := true; isTogglingFavorite := false |}
              eq_refl) as [(st' & tr & result & H1 & H2 & H3 & H4) _].
  exists st', tr, result. exact (conj H1 (conj H2 (conj H3 H4))).
Defined.

(** C6 as stated fails: [isTogglingFavorite] is a lock.  A toggle
    invoked from a render in which a toggle is in flight issues no
    network call at all.  Such a render arises from the first press:
    its synchronous part sets the flag and suspends on the request; a
    second press from the next render flips [favorited] back and sends
    nothing. *)
Lemma C6_toggle_in_flight_issues_no_call :
  exec apply (fun _ => Resolved)
    (toggleFavoriteAPI (lit "a")
       {| favorited := true; isTogglingFavorite := true |})
    {| favorited := true; isTogglingFavorite := true |} =
    ({| favorited := true; isTogglingFavorite := true |}, [], true)
  /\ length (requestsOf (snd (fst
       (exec apply (fun _ => Resolved)
          (toggleFavoriteAPI (lit "a")
             {| favorited := true; isTogglingFavorite := true |})
          {| favorited := true; isTogglingFavorite := true |})))) <> 1%nat
  /\ suspend apply
       (handleFavoritePress (lit "a")
          {| favorited := false; isTogglingFavorite := false |})
       {| favorited := false; isTogglingFavorite := false |} =
     ({| favorited := true; isTogglingFavorite := true |},
      [Updated (setFavorited true); Animated "heart"; Animated "pulse";
       Updated (setIsTogglingFavorite true);
       Requested (AddFavorite (lit "a"))],
      Some (AddFavorite (lit "a")))
  /\ exec apply (fun _ => Resolved)
       (handleFavoritePress (lit "a")
          {| favorited := true; isTogglingFavorite := true |})
       {| favorited := true; isTogglingFavorite := true |} =
     ({| favorited := false; isTogglingFavorite := true |},
      [Updated (setFavorited false); Animated "pulse"], tt).
Proof. repeat split; try reflexivity. cbn. discriminate. Qed.

(** C7.  A favourite press in the feed (no toggle in flight) first
    flips the local [favorited], then plays its animations, and only
    then issues the remote call.  When that call fails, the error is
    logged, the in-flight flag is cleared, and nothing sets
    [favorited] again: it keeps the flipped value, not the value it
    had before the press. *)
Theorem C7_optimistic_flip_is_not_rolled_back
    (productId : jsstring) (net : Request -> Outcome) (f : bool) :
  net (toggleRequest productId f) = Rejected ->
  exec apply net
    (handleFavoritePress productId
       {| favorited := f; isTogglingFavorite := false |})
    {| favorited := f; isTogglingFavorite := false |} =
    ({| favorited := negb f; isTogglingFavorite := false |},
     Updated (setFavorited (negb f))
       :: (if negb f then [Animated "heart"] else [])
       ++ [Animated "pulse";
           Updated (setIsTogglingFavorite true);
           Requested (toggleRequest productId f);
           Logged;
           Updated (setIsTogglingFavorite false)],
     tt)
  /\ forall net', exists rest,
       snd (fst (exec apply net'
                   (handleFavoritePress productId
                      {| favorited := f; isTogglingFavorite := false |})
                   {| favorited := f; isTogglingFavorite := false |})) =
       Updated (setFavorited (negb f))
         :: (if negb f then [Animated "heart"] else [])
         ++ [Animated "pulse";
             Updated (setIsTogglingFavorite true);
             Requested (toggleRequest productId f)]
         ++ rest.
Proof.
  intros Hnet. split.
  - destruct f; cbn in Hnet |- *; rewrite Hnet; reflexivity.
  - intros net'. destruct f; cbn;
      match goal with |- context [net' ?r] => destruct (net' r) end;
      cbn; eexists; reflexivity.
Qed.

Lemma C7_optimistic_flip_is_not_rolled_back_witness :
  exec apply (fun _ => Rejected)
    (handleFavoritePress (lit "a")
       {| favorited := false; isTogglingFavorite := false |})
    {| favorited := false; isTogglingFavorite := false |} =
    ({| favorited := true; isTogglingFavorite := false |},
     [Updated (setFavorited true); Animated "heart"; Animated "pulse";
      Updated (setIsTogglingFavorite true);
      Requested (AddFavorite (lit "a"));
      Logged;
      Updated (setIsTogglingFavorite false)],
     tt).
Proof.
  exact (proj1 (C7_optimistic_flip_is_not_rolled_back (lit "a")
                  (fun _ => Rejected) false eq_refl)).
Defined.

End ReelFavoriteFacts.

Section HomeFavoriteFacts.
Import HomeFavorites.

(** C9.  The favourite press of the product grid issues its request
    first ([removeFavorite] when the product is in the render's
    [favoriteIds], [addFavorite] otherwise) and updates the
    [favoriteIds] state only after the request has resolved; when the
    request is rejected the state is exactly what it was and the error
    is only logged. *)
Theorem C9_home_toggle_updates_after_success
    (product : Product) (favoriteIds live : gset jsstring)
    (net : Request -> Outcome) :
  exec apply net (handleFavoritePress product favoriteIds) live =
    if bool_decide (id product ∈ favoriteIds) then
      match net (RemoveFavorite (id product)) with
      | Resolved =>
          (live ∖ {[ id product ]},
           [Requested (RemoveFavorite (id product));
            Updated (deleteId (id product))], tt)
      | Rejected =>
          (live, [Requested (RemoveFavorite (id product)); Logged], tt)
      end
    else
      match net (AddFavorite (id product)) with
      | Resolved =>
          (live ∪ {[ id product ]},
           [Requested (AddFavorite (id product));
            Updated (addId (id product))], tt)
      | Rejected =>
          (live, [Requested (AddFavorite (id product)); Logged], tt)
      end.
Proof.
  unfold handleFavoritePress.
  destruct (bool_decide (id product ∈ favoriteIds)); cbn [exec];
    match goal with |- context [net ?r] => destruct (net r) end;
    reflexivity.
Qed.

End HomeFavoriteFacts.

Section FavoritesContextFacts.
Import FavoritesContext.

Lemma hasId_true productId (prev : list Product) :
  hasId productId prev = true <-> productId ∈ id <$> prev.
Proof.
  unfold hasId. rewrite existsb_exists, list_elem_of_fmap. split.
  - intros (p & Hin & Hp). apply bool_decide_eq_true in Hp.
    exists p. split; [done|by apply list_elem_of_In].
  - intros (p & -> & Hin). exists p.
    split; [by apply list_elem_of_In|by apply bool_decide_eq_true].
Qed.

Lemma elem_of_withoutId x productId (prev : list Product) :
  x ∈ id <$> withoutId productId prev <->
  x ∈ id <$> prev /\ x <> productId.
Proof.
  unfold withoutId. rewrite !list_elem_of_fmap. split.
  - intros (p & -> & Hin). apply list_elem_of_In, filter_In in Hin as [Hin Hp].
    apply negb_true_iff, bool_decide_eq_false in Hp.
    split; [|done]. exists p. split; [done|by apply list_elem_of_In].
  - intros [(p & -> & Hin) Hne]. exists p. split; [done|].
    apply list_elem_of_In, filter_In. split; [by apply list_elem_of_In|].
    by apply negb_true_iff, bool_decide_eq_false.
Qed.

Lemma withoutId_NoDup productId (prev : list Product) :
  NoDup (id <$> prev) -> NoDup (id <$> withoutId productId prev).
Proof.
  induction prev as [|p prev IH]; [done|].
  cbn [fmap list_fmap]. intros [Hhd Htl]%NoDup_cons.
  unfold withoutId in *. cbn [List.filter].
  destruct (negb (bool_decide (id p = productId))); [|by apply IH].
  cbn [fmap list_fmap]. apply NoDup_cons. split; [|by apply IH].
  intros Hin. apply Hhd.
  by apply (elem_of_withoutId (id p) productId prev) in Hin as [Hin _].
Qed.

Lemma append_NoDup (product : Product) (prev : list Product) :
  hasId (id product) prev = false ->
  NoDup (id <$> prev) -> NoDup (id <$> prev ++ [product]).
Proof.
  intros Hnew Hnd. rewrite fmap_app. apply NoDup_app. split; [done|].
  split; [|apply NoDup_singleton].
  intros x Hx Hin. apply list_elem_of_singleton in Hin as ->.
  apply hasId_true in Hx. congruence.
Qed.

Lemma perform_NoDup (prev : list Product) (a : Action) :
  NoDup (id <$> prev) -> NoDup (id <$> perform prev a).
Proof.
  intros Hnd. destruct a as [product|productId|product]; cbn [perform].
  - unfold addToFavorites.
    destruct (hasId (id product) prev) eqn:Hhas; [done|by apply append_NoDup].
  - by apply withoutId_NoDup.
  - unfold toggleFavorite.
    destruct (hasId (id product) prev) eqn:Hhas; cbn [fst];
      [by apply withoutId_NoDup|by apply append_NoDup].
Qed.

Lemma fold_perform_NoDup (actions : list Action) : forall prev,
  NoDup (id <$> prev) -> NoDup (id <$> fold_left perform actions prev).
Proof.
  induction actions as [|a actions IH]; intros prev Hnd; [done|].
  cbn [fold_left]. by apply IH, perform_NoDup.
Qed.

(** C10.  Starting from the empty list, after any sequence of
    [addToFavorites], [removeFromFavorites] and [toggleFavorite] calls
    no two products of the favourites list have the same identifier.
    [addToFavorites] leaves the list as it is when a product with that
    identifier is already in it, and [toggleFavorite] then removes
    every entry with that identifier and reports false. *)
Theorem C10_favorites_have_distinct_ids (actions : list Action) :
  NoDup (id <$> favoritesAfter actions)
  /\ (forall product prev,
        id product ∈ id <$> prev ->
        addToFavorites product prev = prev
        /\ toggleFavorite product prev = (withoutId (id product) prev, false)
        /\ id product ∉ id <$> fst (toggleFavorite product prev)).
Proof.
  split.
  - apply fold_perform_NoDup. constructor.
  - intros product prev Hin. apply hasId_true in Hin.
    unfold addToFavorites, toggleFavorite. rewrite Hin. cbn [fst].
    split; [done|split; [done|]].
    intros H. by apply elem_of_withoutId in H as [_ H].
Qed.

Lemma C10_favorites_have_distinct_ids_witness :
  NoDup (id <$> favoritesAfter
           [AddToFavorites ForYouScreen.productA;
            AddToFavorites ForYouScreen.productA;
            ToggleFavorite ForYouScreen.productB;
            RemoveFromFavorites (lit "a");
            ToggleFavorite ForYouScreen.productB;
            ToggleFavorite ForYouScreen.productA])
  /\ addToFavorites ForYouScreen.productA [ForYouScreen.productA] =
       [ForYouScreen.productA]
  /\ toggleFavorite ForYouScreen.productA [ForYouScreen.productA] =
       (withoutId (lit "a") [ForYouScreen.productA], false).
Proof.
  pose proof (C10_favorites_have_distinct_ids
                [AddToFavorites ForYouScreen.productA;
                 AddToFavorites ForYouScreen.productA;
                 ToggleFavorite ForYouScreen.productB;
                 RemoveFromFavorites (lit "a");
                 ToggleFavorite ForYouScreen.productB;
                 ToggleFavorite ForYouScreen.productA]) as [Hnd Hsame].
  assert (Hin : id ForYouScreen.productA ∈ id <$> [ForYouScreen.productA])
    by (apply list_elem_of_In; left; reflexivity).
  destruct (Hsame ForYouScreen.productA [ForYouScreen.productA] Hin)
    as (Hadd & Htoggle & _).
  split; [exact Hnd|]. split; [exact Hadd|exact Htoggle].
Defined.

End FavoritesContextFacts.
